(** * whatsapp-action: the fan-out dispatcher of [main.go]

    A shallow embedding of the command-line action that sends one text
    message to a list of recipients: [flattenResponse], [Run], [run] and
    [main], together with the small part of the Go runtime they lean on
    (buffered channels, [select], [context.WithCancel], [errgroup],
    [errors.Join], [strings.Split]).  The embedded program is the draft of
    [main.go] in which [main] listens for signals and hands the results
    channel to [Run]; line numbers refer to it.  The earlier draft has the
    same [run], up to the value it writes.

    Sequential code is embedded as functions; a Go panic is a value of the
    result type [go].  The goroutines of [main] are embedded as one
    interleaving transition system: every goroutine has a program counter,
    [step] executes one action of one goroutine, and a schedule is a list
    of actions.  A step performs at most one operation on shared state (a
    channel, a context, the errgroup), together with the local statements
    around it.  The remote call [client.SendTextMessage] is a parameter of
    the development; a call is one step, and it sees the state its context
    has when the step is taken. *)

From stdpp Require Import base list strings gmap.

Open Scope string_scope.
Open Scope list_scope.

(** ** Go runtime: panics *)

Inductive Panic : Type :=
| NilDereference          (* invalid memory address or nil pointer dereference *)
| SendOnClosedChannel     (* send on closed channel *)
| CloseOfClosedChannel.   (* close of closed channel *)

(** A computation that either returns or panics. *)
Inductive go (A : Type) : Type :=
| Ret (a : A)
| Throw (p : Panic).
Arguments Ret {A} a.
Arguments Throw {A} p.

Definition go_bind {A B : Type} (m : go A) (k : A → go B) : go B :=
  match m with
  | Ret a => k a
  | Throw p => Throw p
  end.

Notation "x ←! m ; k" := (go_bind m (fun x => k))
  (at level 100, m at next level, right associativity).

(** ** The response types of the HTTP layer ([whttp.Response]) *)

Module whttp.

Record MessageID : Type := { ID : string }.

Record ResponseContact : Type := { Input : string; WhatsappID : string }.

(** Slices of pointers: an element may be nil, hence [option]. *)
Record ResponseMessage : Type := {
  Product : string;
  Contacts : list (option ResponseContact);
  Messages : list (option MessageID)
}.

Record Response : Type := {
  StatusCode : Z;
  Headers : gmap string (list string);
  Message : option ResponseMessage
}.

End whttp.

(** ** The action's own types *)

Record Inputs : Type := {
  BaseURL : string;
  AccessToken : string;
  Version : string;
  PhoneNumberID : string;
  BusinessAccountID : string;
  Recipients : list string;
  Message : string;
  PreviewURL : bool;
  IgnoreErrors : bool
}.

Record Response : Type := {
  StatusCode : Z;
  Receiver : string;
  MessageID : string
}.

(** ** [flattenResponse]

    The message id is looked up under the guard
    [response != nil && response.Message != nil && len(Messages) > 0];
    [response.StatusCode] is read after the guard, without one. *)

Definition first_message_id (response : option whttp.Response) : go string :=
  match response with
  | Some r =>
      match whttp.Message r with
      | Some m =>
          match whttp.Messages m with
          | [] => Ret ""
          | Some mid :: _ => Ret (whttp.ID mid)
          | None :: _ => Throw NilDereference
          end
      | None => Ret ""
      end
  | None => Ret ""
  end.

Definition flattenResponse (receiver : string) (response : option whttp.Response)
  : go Response :=
  messageID ←! first_message_id response;
  match response with
  | Some r =>
      Ret {| StatusCode := whttp.StatusCode r;
             Receiver := receiver;
             MessageID := messageID |}
  | None => Throw NilDereference
  end.

(** ** [strings.Split(s, ",")]

    Go cuts [s] at every comma; a string without a comma is returned as the
    only field, the empty string included. *)

Definition comma : Ascii.ascii := Ascii.Ascii false false true true false true false false.

Fixpoint strings_Split (s : string) : list string :=
  match s with
  | EmptyString => [""]
  | String c rest =>
      if Ascii.eqb c comma then "" :: strings_Split rest
      else match strings_Split rest with
           | field :: fields => String c field :: fields
           | [] => [String c ""]
           end
  end.

(** ** Errors

    A Go [error] is an interface value; nil is [None] of [option error]. *)

#[warnings="-register-all"]
Inductive error : Type :=
| ErrNoRecipients                 (* fmt.Errorf("no recipients specified") *)
| ErrCanceled                     (* context.Canceled *)
| ErrSend (detail : string)       (* what SendTextMessage returned *)
| ErrJoin (errs : list error).    (* errors.Join of non-nil errors *)

(** [errors.Join]: nil values are discarded; nil when nothing is left. *)
Definition errors_Join (errs : list (option error)) : option error :=
  match omap id errs with
  | [] => None
  | es => Some (ErrJoin es)
  end.

(** [ctx.Err()] of a cancel context: nil until cancelled. *)
Definition ctx_Err (done : bool) : option error :=
  if done then Some ErrCanceled else None.

(** ** Buffered channels

    The buffer is a queue.  Every channel the program sends on is made
    with a capacity of at least one, so the rendezvous of an unbuffered
    channel is not needed: a send on a channel of capacity 0 just blocks. *)

Record chan (A : Type) : Type := mkChan {
  buf : list A;
  cap : nat;
  closed : bool
}.
Arguments mkChan {A} buf cap closed.
Arguments buf {A} c.
Arguments cap {A} c.
Arguments closed {A} c.

Definition make_chan {A : Type} (n : nat) : chan A := mkChan [] n false.

(** The outcome of one attempt at a channel operation. *)
Inductive attempt (A : Type) : Type :=
| Proceed (a : A)
| Blocked
| Panics (p : Panic).
Arguments Proceed {A} a.
Arguments Blocked {A}.
Arguments Panics {A} p.

(** [c <- v]: panics on a closed channel, blocks while the buffer is full. *)
Definition chan_send {A : Type} (c : chan A) (v : A) : attempt (chan A) :=
  if closed c then Panics SendOnClosedChannel
  else if decide (length (buf c) < cap c)
       then Proceed (mkChan (buf c ++ [v]) (cap c) (closed c))
       else Blocked.

(** [v, ok := <-c]: the oldest buffered value; on an empty closed channel
    the zero value with [ok = false] ([None] here); blocks otherwise. *)
Definition chan_recv {A : Type} (c : chan A) : attempt (option A * chan A) :=
  match buf c with
  | v :: rest => Proceed (Some v, mkChan rest (cap c) (closed c))
  | [] => if closed c then Proceed (None, c) else Blocked
  end.

(** [close(c)]: panics when the channel is closed already. *)
Definition chan_close {A : Type} (c : chan A) : go (chan A) :=
  if closed c then Throw CloseOfClosedChannel
  else Ret (mkChan (buf c) (cap c) true).

(** ** The client library ([whatsapp]) *)

Module whatsapp.

(** The HTTP client of the Go record is left out: the remote call is a
    parameter of the development. *)
Record Client : Type := {
  BaseURL : string;
  Version : string;
  AccessToken : string;
  PhoneNumberID : string;
  WhatsappBusinessAccountID : string
}.

Definition ClientOption : Type := Client → Client.

Definition WithBaseURL (baseURL : string) : ClientOption := fun client =>
  {| BaseURL := baseURL; Version := Version client;
     AccessToken := AccessToken client; PhoneNumberID := PhoneNumberID client;
     WhatsappBusinessAccountID := WhatsappBusinessAccountID client |}.

Definition WithVersion (version : string) : ClientOption := fun client =>
  {| BaseURL := BaseURL client; Version := version;
     AccessToken := AccessToken client; PhoneNumberID := PhoneNumberID client;
     WhatsappBusinessAccountID := WhatsappBusinessAccountID client |}.

Definition WithAccessToken (accessToken : string) : ClientOption := fun client =>
  {| BaseURL := BaseURL client; Version := Version client;
     AccessToken := accessToken; PhoneNumberID := PhoneNumberID client;
     WhatsappBusinessAccountID := WhatsappBusinessAccountID client |}.

Definition WithPhoneNumberID (phoneNumberID : string) : ClientOption := fun client =>
  {| BaseURL := BaseURL client; Version := Version client;
     AccessToken := AccessToken client; PhoneNumberID := phoneNumberID;
     WhatsappBusinessAccountID := WhatsappBusinessAccountID client |}.

Definition WithWhatsappBusinessAccountID (id : string) : ClientOption := fun client =>
  {| BaseURL := BaseURL client; Version := Version client;
     AccessToken := AccessToken client; PhoneNumberID := PhoneNumberID client;
     WhatsappBusinessAccountID := id |}.

(** [NewClient]: the defaults, then every option in order.  [base] is the
    package constant [BaseURL], which the sources do not contain. *)
Definition NewClient (base : string) (opts : list ClientOption) : Client :=
  foldl (fun client opt => opt client)
    {| BaseURL := base; Version := "v16.0"; AccessToken := "";
       PhoneNumberID := ""; WhatsappBusinessAccountID := "" |}
    opts.

Record TextMessage : Type := { Message : string; PreviewURL : bool }.

End whatsapp.

(** ** The goroutines of [main]

    Four kinds of goroutine run: [main] itself, the goroutine of [main] that
    calls [Run], the goroutine of [Run] that calls [run] (the coordinator),
    and one errgroup goroutine per recipient.  Each has a program counter
    that names the statement it executes next. *)

Inductive Signal : Type := SIGINT | SIGTERM.

Inductive Status : Type :=
| Running
| Exited (code : Z)
| Panicked (p : Panic).

(** What [main] prints on standard error. *)
Inductive StderrLine : Type :=
| ReceivedSignal (sig : option Signal)   (* "Received signal: %s\n" *)
| ReportedError (e : error).             (* "error: %s\n" *)

(** [main], from its [select] on. *)
Inductive MainPc : Type :=
| MSelect     (* select { case <-nctx.Done(): case sig := <-signalChan: } *)
| MCancel     (* cancel() *)
| MClose      (* close(responseChan) *)
| MDrain      (* for resp := range responseChan *)
| MRecv       (* if err := <-errChan; err != nil *)
| MDone.

(** The goroutine [errChan <- Run(nctx, inputs, responseChan)]. *)
Inductive RunPc : Type :=
| RStart                                    (* entry of Run *)
| RSelect                                   (* select { case <-ctx.Done(): case <-errChan: } *)
| RRange (allErrors : list (option error))  (* for err := range errChan *)
| RReturn (err : option error)              (* Run returned; errChan <- err pending *)
| RDone.

(** The goroutine [errChan <- run(ctx, client, recipients, message, responses)]. *)
Inductive CoordPc : Type :=
| CIdle                          (* not started *)
| CSpawn (i : nat)               (* the range loop, about to visit recipients[i] *)
| CWait                          (* err := errg.Wait() *)
| CClose (err : option error)    (* the deferred close(responses) *)
| CSend (err : option error)     (* run returned; errChan <- err pending *)
| CDone.

(** One function passed to [errg.Go]. *)
Inductive TaskPc : Type :=
| TSend                                   (* resp, err := client.SendTextMessage(gctx, ...) *)
| TWrite (resp : option whttp.Response)   (* responses <- flattenResponse(recipient, resp) *)
| TReturn (err : option error)            (* returned err to the errgroup wrapper *)
| TDone (err : option error).             (* wrapper finished: wg.Done() *)

Record Task : Type := { recipient : string; tpc : TaskPc }.

(** A record of one call of [SendTextMessage]: ghost state, kept to state
    what was attempted. *)
Record Call : Type := {
  call_to : string;           (* the recipient *)
  call_ctxDone : bool;        (* was gctx done when the call was made *)
  call_err : option error     (* the error it returned *)
}.

Record State : Type := {
  status : Status;
  mainPc : MainPc;
  runPc : RunPc;
  coordPc : CoordPc;
  tasks : list Task;
  nctxDone : bool;                      (* nctx of main, cancelled by cancel() *)
  groupDone : bool;                     (* the errgroup cancelled its gctx *)
  groupErr : option error;              (* the errgroup's first error *)
  signalChan : chan Signal;             (* make(chan os.Signal, 1) *)
  mainErrChan : chan (option error);    (* errChan of main: make(chan error, 1) *)
  runErrChan : chan (option error);     (* errChan of Run: make(chan error, n) *)
  responseChan : chan Response;         (* make(chan *Response, n) *)
  stdout : list Response;
  stderr : list StderrLine;
  calls : list Call
}.

Definition set_status (v : Status) (s : State) : State :=
  {| status := v; mainPc := mainPc s; runPc := runPc s; coordPc := coordPc s;
     tasks := tasks s; nctxDone := nctxDone s; groupDone := groupDone s;
     groupErr := groupErr s; signalChan := signalChan s;
     mainErrChan := mainErrChan s; runErrChan := runErrChan s;
     responseChan := responseChan s; stdout := stdout s; stderr := stderr s;
     calls := calls s |}.

Definition set_mainPc (v : MainPc) (s : State) : State :=
  {| status := status s; mainPc := v; runPc := runPc s; coordPc := coordPc s;
     tasks := tasks s; nctxDone := nctxDone s; groupDone := groupDone s;
     groupErr := groupErr s; signalChan := signalChan s;
     mainErrChan := mainErrChan s; runErrChan := runErrChan s;
     responseChan := responseChan s; stdout := stdout s; stderr := stderr s;
     calls := calls s |}.

Definition set_runPc (v : RunPc) (s : State) : State :=
  {| status := status s; mainPc := mainPc s; runPc := v;
     coordPc := coordPc s; tasks := tasks s; nctxDone := nctxDone s;
     groupDone := groupDone s; groupErr := groupErr s;
     signalChan := signalChan s; mainErrChan := mainErrChan s;
     runErrChan := runErrChan s; responseChan := responseChan s;
     stdout := stdout s; stderr := stderr s; calls := calls s |}.

Definition set_coordPc (v : CoordPc) (s : State) : State :=
  {| status := status s; mainPc := mainPc s; runPc := runPc s; coordPc := v;
     tasks := tasks s; nctxDone := nctxDone s; groupDone := groupDone s;
     groupErr := groupErr s; signalChan := signalChan s;
     mainErrChan := mainErrChan s; runErrChan := runErrChan s;
     responseChan := responseChan s; stdout := stdout s; stderr := stderr s;
     calls := calls s |}.

Definition set_tasks (v : list Task) (s : State) : State :=
  {| status := status s; mainPc := mainPc s; runPc := runPc s;
     coordPc := coordPc s; tasks := v; nctxDone := nctxDone s;
     groupDone := groupDone s; groupErr := groupErr s;
     signalChan := signalChan s; mainErrChan := mainErrChan s;
     runErrChan := runErrChan s; responseChan := responseChan s;
     stdout := stdout s; stderr := stderr s; calls := calls s |}.

Definition set_nctxDone (v : bool) (s : State) : State :=
  {| status := status s; mainPc := mainPc s; runPc := runPc s;
     coordPc := coordPc s; tasks := tasks s; nctxDone := v;
     groupDone := groupDone s; groupErr := groupErr s;
     signalChan := signalChan s; mainErrChan := mainErrChan s;
     runErrChan := runErrChan s; responseChan := responseChan s;
     stdout := stdout s; stderr := stderr s; calls := calls s |}.

Definition set_groupDone (v : bool) (s : State) : State :=
  {| status := status s; mainPc := mainPc s; runPc := runPc s;
     coordPc := coordPc s; tasks := tasks s; nctxDone := nctxDone s;
     groupDone := v; groupErr := groupErr s; signalChan := signalChan s;
     mainErrChan := mainErrChan s; runErrChan := runErrChan s;
     responseChan := responseChan s; stdout := stdout s; stderr := stderr s;
     calls := calls s |}.

Definition set_groupErr (v : option error) (s : State) : State :=
  {| status := status s; mainPc := mainPc s; runPc := runPc s;
     coordPc := coordPc s; tasks := tasks s; nctxDone := nctxDone s;
     groupDone := groupDone s; groupErr := v; signalChan := signalChan s;
     mainErrChan := mainErrChan s; runErrChan := runErrChan s;
     responseChan := responseChan s; stdout := stdout s; stderr := stderr s;
     calls := calls s |}.

Definition set_signalChan (v : chan Signal) (s : State) : State :=
  {| status := status s; mainPc := mainPc s; runPc := runPc s;
     coordPc := coordPc s; tasks := tasks s; nctxDone := nctxDone s;
     groupDone := groupDone s; groupErr := groupErr s; signalChan := v;
     mainErrChan := mainErrChan s; runErrChan := runErrChan s;
     responseChan := responseChan s; stdout := stdout s; stderr := stderr s;
     calls := calls s |}.

Definition set_mainErrChan (v : chan (option error)) (s : State) : State :=
  {| status := status s; mainPc := mainPc s; runPc := runPc s;
     coordPc := coordPc s; tasks := tasks s; nctxDone := nctxDone s;
     groupDone := groupDone s; groupErr := groupErr s;
     signalChan := signalChan s; mainErrChan := v;
     runErrChan := runErrChan s; responseChan := responseChan s;
     stdout := stdout s; stderr := stderr s; calls := calls s |}.

Definition set_runErrChan (v : chan (option error)) (s : State) : State :=
  {| status := status s; mainPc := mainPc s; runPc := runPc s;
     coordPc := coordPc s; tasks := tasks s; nctxDone := nctxDone s;
     groupDone := groupDone s; groupErr := groupErr s;
     signalChan := signalChan s; mainErrChan := mainErrChan s;
     runErrChan := v; responseChan := responseChan s; stdout := stdout s;
     stderr := stderr s; calls := calls s |}.

Definition set_responseChan (v : chan Response) (s : State) : State :=
  {| status := status s; mainPc := mainPc s; runPc := runPc s;
     coordPc := coordPc s; tasks := tasks s; nctxDone := nctxDone s;
     groupDone := groupDone s; groupErr := groupErr s;
     signalChan := signalChan s; mainErrChan := mainErrChan s;
     runErrChan := runErrChan s; responseChan := v; stdout := stdout s;
     stderr := stderr s; calls := calls s |}.

Definition set_stdout (v : list Response) (s : State) : State :=
  {| status := status s; mainPc := mainPc s; runPc := runPc s;
     coordPc := coordPc s; tasks := tasks s; nctxDone := nctxDone s;
     groupDone := groupDone s; groupErr := groupErr s;
     signalChan := signalChan s; mainErrChan := mainErrChan s;
     runErrChan := runErrChan s; responseChan := responseChan s; stdout := v;
     stderr := stderr s; calls := calls s |}.

Definition set_stderr (v : list StderrLine) (s : State) : State :=
  {| status := status s; mainPc := mainPc s; runPc := runPc s;
     coordPc := coordPc s; tasks := tasks s; nctxDone := nctxDone s;
     groupDone := groupDone s; groupErr := groupErr s;
     signalChan := signalChan s; mainErrChan := mainErrChan s;
     runErrChan := runErrChan s; responseChan := responseChan s;
     stdout := stdout s; stderr := v; calls := calls s |}.

Definition set_calls (v : list Call) (s : State) : State :=
  {| status := status s; mainPc := mainPc s; runPc := runPc s;
     coordPc := coordPc s; tasks := tasks s; nctxDone := nctxDone s;
     groupDone := groupDone s; groupErr := groupErr s;
     signalChan := signalChan s; mainErrChan := mainErrChan s;
     runErrChan := runErrChan s; responseChan := responseChan s;
     stdout := stdout s; stderr := stderr s; calls := v |}.

(** ** The transition system *)

(** Which case of a [select] is taken. *)
Inductive Branch : Type :=
| OnDone     (* case <-ctx.Done() *)
| OnRecv.    (* the case that receives from a channel *)

Inductive Action : Type :=
| Deliver (sig : Signal)   (* the runtime forwards a signal to signalChan *)
| Main (b : Branch)        (* a step of main *)
| RunG (b : Branch)        (* a step of the goroutine calling Run *)
| Coord                    (* a step of the goroutine calling run *)
| TaskG (i : nat).         (* a step of the i-th errgroup goroutine *)

(** How many elements of a list satisfy a test. *)
Fixpoint tally {A : Type} (f : A → bool) (l : list A) : nat :=
  match l with
  | [] => 0
  | x :: rest => (if f x then 1 else 0) + tally f rest
  end.

Definition task_done (t : Task) : bool :=
  match tpc t with
  | TDone _ => true
  | _ => false
  end.

(** What the program takes from outside its sources.

    [SendTextMessage client done recipient message] is the remote call
    [client.SendTextMessage(ctx, recipient, message)]: the Boolean tells
    whether [ctx] is done when the call is made, the result is the Go pair
    [(resp, err)].  [DefaultBaseURL] is the package constant
    [whatsapp.BaseURL]. *)
Class Remote : Type := {
  SendTextMessage :
    whatsapp.Client → bool → string → whatsapp.TextMessage →
    option whttp.Response * option error;
  DefaultBaseURL : string
}.

Section Dispatcher.

Context `{Remote} (inputs : Inputs).

(** The client and the message [Run] builds before it starts [run]. *)
Definition client : whatsapp.Client :=
  whatsapp.NewClient DefaultBaseURL
    [ whatsapp.WithBaseURL (BaseURL inputs);
      whatsapp.WithAccessToken (AccessToken inputs);
      whatsapp.WithVersion (Version inputs);
      whatsapp.WithPhoneNumberID (PhoneNumberID inputs);
      whatsapp.WithWhatsappBusinessAccountID (BusinessAccountID inputs) ].

Definition message : whatsapp.TextMessage :=
  {| whatsapp.Message := Message inputs;
     whatsapp.PreviewURL := PreviewURL inputs |}.

(** [gctx] of [errgroup.WithContext(ctx)] is done when its parent is, or
    when the group cancelled it. *)
Definition gctxDone (s : State) : bool := nctxDone s || groupDone s.

Definition panic (p : Panic) (s : State) : State := set_status (Panicked p) s.

(** *** [main], lines 195-212 *)
Definition step_main (b : Branch) (s : State) : option State :=
  match mainPc s with
  | MSelect =>
      match b with
      | OnDone =>
          if nctxDone s then Some (set_mainPc MClose s) else None
      | OnRecv =>
          match chan_recv (signalChan s) with
          | Proceed (sig, c) =>
              Some (set_mainPc MCancel
                     (set_stderr (stderr s ++ [ReceivedSignal sig])
                       (set_signalChan c s)))
          | _ => None
          end
      end
  | MCancel => Some (set_mainPc MClose (set_nctxDone true s))
  | MClose =>
      match chan_close (responseChan s) with
      | Ret c => Some (set_mainPc MDrain (set_responseChan c s))
      | Throw p => Some (panic p s)
      end
  | MDrain =>
      match chan_recv (responseChan s) with
      | Proceed (Some resp, c) =>
          Some (set_stdout (stdout s ++ [resp]) (set_responseChan c s))
      | Proceed (None, _) => Some (set_mainPc MRecv s)
      | _ => None
      end
  | MRecv =>
      match chan_recv (mainErrChan s) with
      | Proceed (Some (Some e), c) =>
          Some (set_status (Exited 1)
                 (set_mainPc MDone
                   (set_stderr (stderr s ++ [ReportedError e])
                     (set_mainErrChan c s))))
      | Proceed (_, c) =>
          Some (set_status (Exited 0) (set_mainPc MDone (set_mainErrChan c s)))
      | _ => None
      end
  | MDone => None
  end.

(** *** [Run], lines 53-110, and the send of its result *)
Definition step_Run (b : Branch) (s : State) : option State :=
  match runPc s with
  | RStart =>
      if decide (length (Recipients inputs) = 0)
      then Some (set_runPc (RReturn (Some ErrNoRecipients)) s)
      else Some (set_runPc RSelect
                  (set_coordPc (CSpawn 0)
                    (set_runErrChan (make_chan (length (Recipients inputs))) s)))
  | RSelect =>
      match b with
      | OnDone =>
          if nctxDone s
          then Some (set_runPc (RReturn (ctx_Err (nctxDone s))) s)
          else None
      | OnRecv =>
          match chan_recv (runErrChan s) with
          | Proceed (_, c) => Some (set_runPc (RRange []) (set_runErrChan c s))
          | _ => None
          end
      end
  | RRange allErrors =>
      match chan_recv (runErrChan s) with
      | Proceed (Some err, c) =>
          Some (set_runPc (RRange (allErrors ++ [err])) (set_runErrChan c s))
      | Proceed (None, _) =>
          Some (set_runPc (RReturn (errors_Join allErrors)) s)
      | _ => None
      end
  | RReturn err =>
      match chan_send (mainErrChan s) err with
      | Proceed c => Some (set_runPc RDone (set_mainErrChan c s))
      | Blocked => None
      | Panics p => Some (panic p s)
      end
  | RDone => None
  end.

(** *** [run], lines 112-140, and the send of its result *)
Definition step_coord (s : State) : option State :=
  match coordPc s with
  | CIdle => None
  | CSpawn i =>
      match Recipients inputs !! i with
      | Some r =>
          Some (set_coordPc (CSpawn (S i))
                 (set_tasks (tasks s ++ [{| recipient := r; tpc := TSend |}]) s))
      | None => Some (set_coordPc CWait s)
      end
  | CWait =>
      if forallb task_done (tasks s)
      then Some (set_coordPc (CClose (groupErr s)) (set_groupDone true s))
      else None
  | CClose err =>
      match chan_close (responseChan s) with
      | Ret c => Some (set_coordPc (CSend err) (set_responseChan c s))
      | Throw p => Some (panic p s)
      end
  | CSend err =>
      match chan_send (runErrChan s) err with
      | Proceed c => Some (set_coordPc CDone (set_runErrChan c s))
      | Blocked => None
      | Panics p => Some (panic p s)
      end
  | CDone => None
  end.

(** *** The function passed to [errg.Go], lines 121-128, in its wrapper *)
Definition set_task (i : nat) (t : Task) (pc : TaskPc) (s : State) : State :=
  set_tasks (<[i := {| recipient := recipient t; tpc := pc |}]> (tasks s)) s.

(** The errgroup wrapper: the first non-nil error is kept and cancels
    [gctx]. *)
Definition group_record (err : option error) (s : State) : State :=
  match err, groupErr s with
  | Some e, None => set_groupErr (Some e) (set_groupDone true s)
  | _, _ => s
  end.

Definition step_task (i : nat) (s : State) : option State :=
  match tasks s !! i with
  | None => None
  | Some t =>
      match tpc t with
      | TSend =>
          let '(resp, err) :=
            SendTextMessage client (gctxDone s) (recipient t) message in
          let s' :=
            set_calls (calls s ++ [{| call_to := recipient t;
                                      call_ctxDone := gctxDone s;
                                      call_err := err |}]) s in
          match err with
          | Some e => Some (set_task i t (TReturn (Some e)) s')
          | None => Some (set_task i t (TWrite resp) s')
          end
      | TWrite resp =>
          match flattenResponse (recipient t) resp with
          | Throw p => Some (panic p s)
          | Ret r =>
              match chan_send (responseChan s) r with
              | Proceed c =>
                  Some (set_task i t (TReturn None) (set_responseChan c s))
              | Blocked => None
              | Panics p => Some (panic p s)
              end
          end
      | TReturn err => Some (set_task i t (TDone err) (group_record err s))
      | TDone _ => None
      end
  end.

(** *** Signal delivery: a send that never blocks, the signal is dropped
    when the buffer is full *)
Definition step_deliver (sig : Signal) (s : State) : option State :=
  match chan_send (signalChan s) sig with
  | Proceed c => Some (set_signalChan c s)
  | _ => Some s
  end.

(** One action; nothing runs once the process has exited or panicked. *)
Definition step (s : State) (a : Action) : option State :=
  match status s with
  | Running =>
      match a with
      | Deliver sig => step_deliver sig s
      | Main b => step_main b s
      | RunG b => step_Run b s
      | Coord => step_coord s
      | TaskG i => step_task i s
      end
  | _ => None
  end.

Fixpoint exec (s : State) (schedule : list Action) : option State :=
  match schedule with
  | [] => Some s
  | a :: rest =>
      match step s a with
      | Some s' => exec s' rest
      | None => None
      end
  end.

(** [main] up to its [select]: the channels are made and the goroutine
    that calls [Run] is started. *)
Definition init : State :=
  {| status := Running; mainPc := MSelect; runPc := RStart; coordPc := CIdle;
     tasks := [];
     nctxDone := false; groupDone := false; groupErr := None;
     signalChan := make_chan 1;
     mainErrChan := make_chan 1;
     runErrChan := make_chan 0;
     responseChan := make_chan (length (Recipients inputs));
     stdout := []; stderr := []; calls := [] |}.

Definition reachable (s : State) : Prop :=
  ∃ schedule, exec init schedule = Some s.

(** *** Predicates on states *)

(** No goroutine of the program can take a step; only a signal can
    still arrive. *)
Definition quiescent (s : State) : Prop :=
  ∀ a, (∀ sig, a ≠ Deliver sig) → step s a = None.

(** The only errors [Run] can hand to [main]. *)
Definition config_or_cancel (err : option error) : Prop :=
  err = Some ErrNoRecipients ∨ err = Some ErrCanceled.

(** What reaches [main] through its [errChan]. *)
Definition inv_errors (s : State) : Prop :=
  closed (runErrChan s) = false
  ∧ closed (mainErrChan s) = false
  ∧ (∀ err, runPc s = RReturn err → config_or_cancel err)
  ∧ Forall config_or_cancel (buf (mainErrChan s))
  ∧ Forall (fun l => ∀ e, l = ReportedError e → config_or_cancel (Some e)) (stderr s)
  ∧ status s ≠ Exited 0.

(** The coordinator and the tasks it has spawned. *)
Definition inv_spawn (s : State) : Prop :=
  (∀ i t, tasks s !! i = Some t → Recipients inputs !! i = Some (recipient t))
  ∧ (runPc s = RStart → coordPc s = CIdle)
  ∧ match coordPc s with
    | CIdle => tasks s = [] ∧ (runPc s = RStart ∨ Recipients inputs = [])
    | CSpawn i => length (tasks s) = i
    | CWait => length (tasks s) = length (Recipients inputs)
    | CClose _ | CSend _ | CDone =>
        length (tasks s) = length (Recipients inputs)
        ∧ forallb task_done (tasks s) = true
        ∧ groupDone s = true
    end.

(** The errgroup: a recorded error has cancelled [gctx], and a task that
    returned an error has had one recorded. *)
Definition inv_group (s : State) : Prop :=
  (is_Some (groupErr s) → groupDone s = true)
  ∧ ∀ i t e, tasks s !! i = Some t → tpc t = TDone (Some e) → is_Some (groupErr s).

(** The calls on record. *)
Definition inv_calls (s : State) : Prop :=
  (∀ i t, tasks s !! i = Some t → tpc t ≠ TSend →
          ∃ c, c ∈ calls s ∧ call_to c = recipient t)
  ∧ (∀ c, c ∈ calls s → call_to c ∈ Recipients inputs).

(** *** Counting outcomes *)

(** The task has written its outcome to the results channel. *)
Definition wrote (t : Task) : bool :=
  match tpc t with
  | TReturn None | TDone None => true
  | _ => false
  end.

(** The call of the task returned no error. *)
Definition call_succeeded (t : Task) : bool :=
  match tpc t with
  | TWrite _ | TReturn None | TDone None => true
  | _ => false
  end.

(** The call of the task returned an error. *)
Definition call_failed (t : Task) : bool :=
  match tpc t with
  | TReturn (Some _) | TDone (Some _) => true
  | _ => false
  end.

Definition is_nil (err : option error) : bool :=
  match err with
  | None => true
  | Some _ => false
  end.

(** The outcomes on the results channel or already printed from it are the
    writes of the tasks; the calls on record are those of the tasks. *)
Definition inv_sink (s : State) : Prop :=
  length (buf (responseChan s)) + length (stdout s) = tally wrote (tasks s)
  ∧ tally (fun c => is_nil (call_err c)) (calls s) = tally call_succeeded (tasks s)
  ∧ tally (fun c => negb (is_nil (call_err c))) (calls s) = tally call_failed (tasks s).

(** With a recipient to send to, the cancellation is the only error
    [Run] returns and [main] reports. *)
Definition inv_cancel_only (s : State) : Prop :=
  (∀ err, runPc s = RReturn err → err = Some ErrCanceled)
  ∧ Forall (fun err => err = Some ErrCanceled) (buf (mainErrChan s))
  ∧ Forall (fun l => ∀ e, l = ReportedError e → e = ErrCanceled) (stderr s).

End Dispatcher.

(** ** [main]: the inputs come from the environment *)

Definition main_inputs (getenv : string → string) : Inputs :=
  {| BaseURL := getenv "INPUT_BASE_URL";
     AccessToken := getenv "INPUT_ACCESS_TOKEN";
     Version := getenv "INPUT_VERSION";
     PhoneNumberID := getenv "INPUT_PHONE_NUMBER_ID";
     BusinessAccountID := getenv "INPUT_BUSINESS_ACCOUNT_ID";
     Recipients := strings_Split (getenv "INPUT_RECIPIENTS");
     Message := getenv "INPUT_MESSAGE";
     PreviewURL := bool_decide (getenv "INPUT_PREVIEW_URL" = "1");
     IgnoreErrors := false |}.

(** The process [main] starts in an environment. *)
Definition main (getenv : string → string) : State := init (main_inputs getenv).

(** The errors [main] has reported on standard error, in order. *)
Definition reported (lines : list StderrLine) : list error :=
  omap (fun l => match l with ReportedError e => Some e | ReceivedSignal _ => None end)
       lines.
Arguments reported : simpl never.

(** *** An empty recipient list

    What the states of the process look like when [Run] is handed no
    recipient: no coordinator, no task, no call, an empty sink; [Run]
    carries the configuration error to [main], which reports it on its
    way out. *)
Definition inv_empty (s : State) : Prop :=
  tasks s = [] ∧ coordPc s = CIdle ∧ calls s = []
  ∧ buf (responseChan s) = [] ∧ stdout s = []
  ∧ closed (mainErrChan s) = false ∧ cap (mainErrChan s) = 1
  ∧ closed (signalChan s) = false ∧ cap (signalChan s) = 1
  ∧ match runPc s with
    | RStart => buf (mainErrChan s) = [] ∧ mainPc s ≠ MDone
    | RReturn err =>
        err = Some ErrNoRecipients ∧ buf (mainErrChan s) = [] ∧ mainPc s ≠ MDone
    | RDone =>
        buf (mainErrChan s)
        = match mainPc s with MDone => [] | _ => [Some ErrNoRecipients] end
    | RSelect | RRange _ => False
    end
  ∧ match mainPc s with
    | MSelect | MCancel | MClose =>
        closed (responseChan s) = false
        ∧ status s = Running ∧ reported (stderr s) = []
    | MDrain | MRecv =>
        closed (responseChan s) = true
        ∧ status s = Running ∧ reported (stderr s) = []
    | MDone =>
        status s = Exited 1 ∧ reported (stderr s) = [ErrNoRecipients]
    end.

(** The number of steps the process is away from its exit, the delivery
    of the interrupt included. *)
Definition steps_to_exit (s : State) : nat :=
  match runPc s with
  | RStart => 2
  | RReturn _ => 1
  | _ => 0
  end
  + match mainPc s with
    | MSelect => match buf (signalChan s) with [] => 6 | _ => 5 end
    | MCancel => 4
    | MClose => 3
    | MDrain => 2
    | MRecv => 1
    | MDone => 0
    end.

(** The state a schedule leads to (the initial state when the schedule
    cannot be run). *)
Definition run_of `{Remote} (inputs : Inputs) (schedule : list Action) : State :=
  default (init inputs) (exec inputs (init inputs) schedule).

(** ** Statements about whole runs *)

(** Absent an interrupt, every call of [SendTextMessage] is made under a
    scope that is not cancelled: no failure of a sibling cancels it. *)
Definition failure_never_cancels_siblings `{Remote} (inputs : Inputs) : Prop :=
  ∀ s, reachable inputs s → nctxDone s = false →
       ∀ c, c ∈ calls s → call_ctxDone c = false.

(** The coordinator is past [errg.Wait()]. *)
Definition joined (pc : CoordPc) : Prop :=
  match pc with
  | CClose _ | CSend _ | CDone => True
  | _ => False
  end.

(** ** Concrete runs *)

Definition inputs_for (recipients : list string) : Inputs :=
  {| BaseURL := "https://graph.facebook.com";
     AccessToken := "token";
     Version := "v16.0";
     PhoneNumberID := "1";
     BusinessAccountID := "2";
     Recipients := recipients;
     Message := "hi";
     PreviewURL := false;
     IgnoreErrors := false |}.

(** The remote end accepted the message and assigned it [id]. *)
Definition sent (code : Z) (id : string) : option whttp.Response * option error :=
  (Some {| whttp.StatusCode := code;
           whttp.Headers := ∅;
           whttp.Message :=
             Some {| whttp.Product := "whatsapp";
                     whttp.Contacts := [];
                     whttp.Messages := [Some {| whttp.ID := id |}] |} |},
   None).

(** The remote end refused: [SendTextMessage] returns an error. *)
Definition refused (detail : string) : option whttp.Response * option error :=
  (None, Some (ErrSend detail)).

(** A remote end that answers by recipient; when it honours cancellation a
    call under a done context fails with [context.Canceled]. *)
Definition remote_of (honours_cancel : bool)
    (answer : string → option whttp.Response * option error) : Remote :=
  {| SendTextMessage := fun _ done recipient _ =>
       if honours_cancel && done then (None, Some ErrCanceled) else answer recipient;
     DefaultBaseURL := "https://graph.facebook.com" |}.

Definition both_delivered (recipient : string) : option whttp.Response * option error :=
  if String.eqb recipient "111" then sent 200 "wamid.A" else sent 200 "wamid.B".

Definition none_delivered (recipient : string) : option whttp.Response * option error :=
  refused "status 500".

Definition first_refused (recipient : string) : option whttp.Response * option error :=
  if String.eqb recipient "111" then refused "status 500" else sent 200 "wamid.B".

(** The named runs below use these remote ends and inputs. *)
Definition remote_delivering : Remote := remote_of false both_delivered.
Definition remote_refusing : Remote := remote_of false none_delivered.
Definition remote_refusing_first : Remote := remote_of false first_refused.
Definition remote_cancellable : Remote := remote_of true both_delivered.
Definition remote_cancellable_refusing_first : Remote := remote_of true first_refused.

Definition one_recipient : Inputs := inputs_for ["111"].
Definition two_recipients : Inputs := inputs_for ["111"; "222"].

(** Pieces of schedules.  [Run] starts the coordinator, which spawns one
    task per recipient and reaches [errg.Wait()]. *)
Definition start_one : list Action := [ RunG OnRecv; Coord; Coord ].
Definition start_two : list Action := [ RunG OnRecv; Coord; Coord; Coord ].

(** Task [i] calls, writes its outcome and returns nil. *)
Definition succeed (i : nat) : list Action := [ TaskG i; TaskG i; TaskG i ].

(** Task [i] calls and returns the error. *)
Definition fail (i : nat) : list Action := [ TaskG i; TaskG i ].

(** The coordinator joins, closes the sink and hands its result over. *)
Definition join : list Action := [ Coord; Coord; Coord ].

(** [Run] takes the [errChan] case of its [select]. *)
Definition collect : list Action := [ RunG OnRecv ].

(** A signal arrives; [main] receives it, cancels and closes the sink. *)
Definition interrupt : list Action :=
  [ Deliver SIGINT; Main OnRecv; Main OnRecv; Main OnRecv ].

(** [main] finds the sink drained, [Run] takes the [ctx.Done()] case and
    hands [ctx.Err()] to [main], which reports it. *)
Definition report : list Action :=
  [ Main OnRecv; RunG OnDone; RunG OnDone; Main OnRecv ].
(** * Properties *)

(** ** [flattenResponse] *)

Lemma first_message_id_nil : first_message_id None = Ret "".
Proof. reflexivity. Qed.

Lemma flattenResponse_Some (receiver : string) (r : whttp.Response) (id : string) :
  first_message_id (Some r) = Ret id →
  flattenResponse receiver (Some r)
  = Ret {| StatusCode := whttp.StatusCode r; Receiver := receiver; MessageID := id |}.
Proof. unfold flattenResponse. intros ->. reflexivity. Qed.



(** A first element that is a nil pointer is dereferenced all the same. *)
Lemma flattenResponse_nil_first (receiver : string) (r : whttp.Response) m rest :
  whttp.Message r = Some m → whttp.Messages m = None :: rest →
  flattenResponse receiver (Some r) = Throw NilDereference.
Proof. intros Hm Hl. unfold flattenResponse. cbn. by rewrite Hm, Hl. Qed.

(** C10: the guard of [flattenResponse] accepts a nil response (the lookup
    of the message id returns the empty string for it), but the status code
    is read outside the guard: on a nil response the function panics with a
    nil dereference, and whenever it returns an outcome the response was
    not nil and the outcome carries its status code. *)
Theorem flattenResponse_nil_response (receiver : string) :
  first_message_id None = Ret ""
  ∧ flattenResponse receiver None = Throw NilDereference
  ∧ (∀ response out,
       flattenResponse receiver response = Ret out →
       ∃ r, response = Some r ∧ StatusCode out = whttp.StatusCode r).
Proof.
  split; [reflexivity|]. split; [reflexivity|].
  intros [r|] out H; [|discriminate].
  exists r. split; [reflexivity|].
  unfold flattenResponse in H.
  destruct (first_message_id (Some r)); cbn in H; [|discriminate].
  by inversion H.
Qed.

Lemma flattenResponse_nil_response_witness :
  flattenResponse "111" (sent 200 "wamid.A").1
  = Ret {| StatusCode := 200; Receiver := "111"; MessageID := "wamid.A" |}
  ∧ ∃ r, (sent 200 "wamid.A").1 = Some r ∧ 200%Z = whttp.StatusCode r.
Proof.
  split; [reflexivity|].
  exact (proj2 (proj2 (flattenResponse_nil_response "111"))
           (sent 200 "wamid.A").1
           {| StatusCode := 200; Receiver := "111"; MessageID := "wamid.A" |}
           eq_refl).
Defined.

(** ** [strings.Split] *)

Lemma strings_Split_empty : strings_Split "" = [""].
Proof. reflexivity. Qed.

Lemma strings_Split_nonempty (s : string) : strings_Split s ≠ [].
Proof.
  destruct s as [|c rest]; cbn; [discriminate|].
  destruct (Ascii.eqb c comma); [discriminate|].
  destruct (strings_Split rest); discriminate.
Qed.

Lemma strings_Split_length (s : string) : 0 < length (strings_Split s).
Proof.
  pose proof (strings_Split_nonempty s).
  destruct (strings_Split s); [done|cbn; lia].
Qed.

(** ** Schedules and reachable states *)

Section Schedules.

Context `{Remote} (inputs : Inputs).

Lemma exec_app (s : State) (tr1 tr2 : list Action) :
  exec inputs s (tr1 ++ tr2) = exec inputs s tr1 ≫= fun s' => exec inputs s' tr2.
Proof.
  revert s. induction tr1 as [|a tr1 IH]; intros s; cbn; [done|].
  destruct (step inputs s a); cbn; [apply IH|done].
Qed.

Lemma reachable_init : reachable inputs (init inputs).
Proof. by exists []. Qed.

Lemma reachable_step (s s' : State) (a : Action) :
  reachable inputs s → step inputs s a = Some s' → reachable inputs s'.
Proof.
  intros [tr Htr] Hstep. exists (tr ++ [a]).
  rewrite exec_app, Htr. cbn. by rewrite Hstep.
Qed.

Lemma reachable_exec (s s' : State) (tr : list Action) :
  reachable inputs s → exec inputs s tr = Some s' → reachable inputs s'.
Proof.
  intros [tr0 Htr0] Htr. exists (tr0 ++ tr). by rewrite exec_app, Htr0.
Qed.

(** Induction over the schedule that reaches a state. *)
Lemma reachable_invariant (P : State → Prop) :
  P (init inputs) →
  (∀ s a s', reachable inputs s → P s → step inputs s a = Some s' → P s') →
  ∀ s, reachable inputs s → P s.
Proof.
  intros Hinit Hstep s [tr Htr]. revert s Htr.
  induction tr as [|a tr IH] using rev_ind; intros s Htr.
  - cbn in Htr. by simplify_eq.
  - rewrite exec_app in Htr.
    destruct (exec inputs (init inputs) tr) as [s0|] eqn:Hs0; cbn in Htr; [|done].
    destruct (step inputs s0 a) as [s1|] eqn:Hs1; cbn in Htr; [|done].
    simplify_eq. eapply Hstep; [by exists tr|by apply IH|done].
Qed.

Lemma step_running (s s' : State) (a : Action) :
  step inputs s a = Some s' → status s = Running.
Proof. unfold step. by destruct (status s). Qed.

End Schedules.

(** Case analysis on one step: every way [step inputs s a] can produce
    [s'].  [step_cases] covers all goroutines, [step_cases_but_tasks]
    leaves the steps of a task as they are, for [step_task_spec]. *)
Ltac step_unfold H :=
  unfold step_deliver, step_main, step_Run, step_coord, step_task,
    set_task, group_record, panic, chan_send, chan_recv, chan_close in H;
  repeat case_match; simplify_eq; cbn in *; simplify_eq.

Ltac step_action H :=
  let Hrun := fresh "Hrun" in
  pose proof (step_running _ _ _ _ H) as Hrun;
  unfold step in H; rewrite Hrun in H;
  match type of H with
  | match ?a with _ => _ end = _ => destruct a
  end.

Ltac step_cases H := step_action H; step_unfold H.

Ltac step_cases_but_tasks H :=
  step_action H;
  [ step_unfold H | step_unfold H | step_unfold H | step_unfold H | ].

(** A lookup in the task list after a step: the task that moved, a task
    that was spawned, or a task that was there before. *)
Ltac lookup_cases Hj :=
  first
    [ apply list_lookup_insert_Some in Hj as [(-> & <- & _)|[_ Hj]]
    | apply lookup_app_Some in Hj as [Hj|[_ Hj]];
      [|apply list_lookup_singleton_Some in Hj as [_ <-]] ].

(** ** Invariants *)

Section Invariants.

Context `{Remote} (inputs : Inputs).

(** What a step of a task changes. *)
Lemma step_task_spec (s s' : State) (i : nat) :
  step_task inputs i s = Some s' →
  ∃ t, tasks s !! i = Some t
    ∧ (∀ err, tpc t ≠ TDone err)
    ∧ mainPc s' = mainPc s ∧ runPc s' = runPc s ∧ coordPc s' = coordPc s
    ∧ nctxDone s' = nctxDone s
    ∧ mainErrChan s' = mainErrChan s ∧ runErrChan s' = runErrChan s
    ∧ stdout s' = stdout s ∧ stderr s' = stderr s
    ∧ (groupDone s = true → groupDone s' = true)
    ∧ (tasks s' = tasks s
       ∨ ∃ pc, tasks s' = <[i := {| recipient := recipient t; tpc := pc |}]> (tasks s)).
Proof.
  intros H0. unfold step_task in H0.
  destruct (tasks s !! i) as [t|] eqn:Ht; [|done].
  exists t. split; [done|].
  step_unfold H0; repeat split; try done; eauto.
Qed.

(** *** What [Run] hands to [main] *)

Lemma inv_errors_init : inv_errors (init inputs).
Proof.
  unfold inv_errors; cbn. repeat split; try done; by constructor.
Qed.

Lemma inv_errors_step (s s' : State) (a : Action) :
  inv_errors s → step inputs s a = Some s' → inv_errors s'.
Proof.
  unfold inv_errors, config_or_cancel.
  intros (Hrc & Hmc & Hret & Hbuf & Herr & Hex) H0.
  step_cases H0;
    repeat match goal with Hb : buf _ = _ |- _ => rewrite Hb in * end;
    rewrite ?Forall_app, ?Forall_cons, ?Forall_nil in *;
    naive_solver.
Qed.

Lemma inv_errors_reachable (s : State) : reachable inputs s → inv_errors s.
Proof.
  apply reachable_invariant; [apply inv_errors_init|].
  intros ? ? ? _. apply inv_errors_step.
Qed.

(** *** The coordinator and its tasks *)

Lemma forallb_lookup {A : Type} (f : A → bool) (l : list A) (i : nat) (x : A) :
  forallb f l = true → l !! i = Some x → f x = true.
Proof.
  revert i. induction l as [|y l IH]; intros i Hall Hi; [done|].
  cbn in Hall. apply andb_true_iff in Hall as [Hy Hl].
  destruct i as [|i]; cbn in Hi; [by simplify_eq|by eapply IH].
Qed.

Lemma task_done_lookup (s : State) (i : nat) (t : Task) :
  forallb task_done (tasks s) = true → tasks s !! i = Some t →
  ∃ err, tpc t = TDone err.
Proof.
  intros Hall Hi. pose proof (forallb_lookup _ _ _ _ Hall Hi) as Hd.
  unfold task_done in Hd. destruct (tpc t); try done. by eexists.
Qed.

Lemma inv_spawn_init : inv_spawn inputs (init inputs).
Proof. unfold inv_spawn; cbn. repeat split; try done. by left. Qed.

Lemma inv_spawn_step (s s' : State) (a : Action) :
  inv_spawn inputs s → step inputs s a = Some s' → inv_spawn inputs s'.
Proof.
  unfold inv_spawn.
  intros (Hrcp & Hstart & Hpc) H0.
  step_cases_but_tasks H0.
  all: try (repeat split; try done; try congruence; naive_solver).
  - (* Run, no recipients *)
    repeat split; try done; try apply Hpc. right. by apply nil_length_inv.
  - (* Run starts the coordinator *)
    repeat split; try done. destruct Hpc as [-> _]. done.
  - (* the coordinator spawns a task *)
    repeat split; try done.
    + intros j t Hj. apply lookup_app_Some in Hj as [Hj|[Hlen Hj]]; [by apply Hrcp|].
      apply list_lookup_singleton_Some in Hj as [Hj <-]. cbn.
      replace j with (length (tasks s)) by lia. congruence.
    + intros Hr. specialize (Hstart Hr). congruence.
    + rewrite length_app. cbn. lia.
  - (* the coordinator leaves the loop *)
    split; [done|]. split; [intros Hr; specialize (Hstart Hr); congruence|].
    match goal with Hn : Recipients inputs !! _ = None |- _ =>
      apply lookup_ge_None in Hn; rename Hn into Hge end.
    destruct (tasks s) as [|t0 ts _] eqn:Hts using rev_ind; [cbn in *; lia|].
    rewrite length_app in *. cbn in *.
    assert (Hlast : (ts ++ [t0]) !! length ts = Some t0)
      by (rewrite lookup_app_r by lia; by rewrite Nat.sub_diag).
    apply Hrcp, lookup_lt_Some in Hlast. lia.
  - (* a task *)
    apply step_task_spec in H0
      as (t & Ht & Hnd & _ & Hr & Hc & _ & _ & _ & _ & _ & Hg & Htasks).
    rewrite Hr, Hc. destruct Htasks as [->|[pc ->]].
    { split; [done|]. split; [done|]. destruct (coordPc s); try done.
      all: destruct Hpc as (? & ? & ?); auto. }
    split; [|split; [done|]].
    + intros j t' Hj. apply list_lookup_insert_Some in Hj as [(-> & <- & _)|[_ Hj]];
        [cbn; by apply Hrcp|by apply Hrcp].
    + rewrite length_insert.
      destruct (coordPc s); try done.
      { destruct Hpc as [Hnil _]. by rewrite Hnil in Ht. }
      all: destruct Hpc as (Hlen & Hall & Hgd).
      all: destruct (task_done_lookup _ _ _ Hall Ht) as [e0 He0]; by destruct (Hnd e0).
Qed.

Lemma inv_spawn_reachable (s : State) : reachable inputs s → inv_spawn inputs s.
Proof.
  apply reachable_invariant; [apply inv_spawn_init|].
  intros ? ? ? _. apply inv_spawn_step.
Qed.

(** *** The errgroup *)

Lemma inv_group_init : inv_group (init inputs).
Proof. unfold inv_group; cbn. split; [by intros []|done]. Qed.

Lemma inv_group_step (s s' : State) (a : Action) :
  inv_group s → step inputs s a = Some s' → inv_group s'.
Proof.
  unfold inv_group. intros [Hdone Herr] H0.
  step_cases H0; (split; [by eauto|]); try done.
  all: intros j t' e' Hj Hpc'; lookup_cases Hj; cbn in *; simplify_eq; eauto.
Qed.

Lemma inv_group_reachable (s : State) : reachable inputs s → inv_group s.
Proof.
  apply reachable_invariant; [apply inv_group_init|].
  intros ? ? ? _. apply inv_group_step.
Qed.

(** *** The calls on record *)

Lemma inv_calls_init : inv_calls inputs (init inputs).
Proof. unfold inv_calls; cbn. split; [done|]. by intros c ?%elem_of_nil. Qed.

Lemma inv_calls_step (s s' : State) (a : Action) :
  inv_spawn inputs s → inv_calls inputs s → step inputs s a = Some s' →
  inv_calls inputs s'.
Proof.
  unfold inv_calls. intros (Hrcp & _ & _) [Htask Hcall] H0.
  step_cases H0; try done.
  all: split;
    [ intros j t' Hj Hne; lookup_cases Hj; cbn in *; try done
    | first [ done
            | intros c [Hc| ->%list_elem_of_singleton]%elem_of_app;
              [by auto|cbn; by eapply list_elem_of_lookup_2, Hrcp] ] ].
  (* a task that was there before *)
  all: try (destruct (Htask _ _ Hj Hne) as (c & Hc & Heq); exists c;
            rewrite ?elem_of_app; by auto).
  (* the task that made its call *)
  all: try (eexists; split;
            [apply elem_of_app; right; by apply list_elem_of_singleton|done]).
  (* the task that moved on after its call *)
  all: match goal with Ht : tasks _ !! _ = Some ?t |- _ =>
         apply Htask in Ht; [done|congruence] end.
Qed.

Lemma inv_calls_reachable (s : State) : reachable inputs s → inv_calls inputs s.
Proof.
  apply reachable_invariant; [apply inv_calls_init|].
  intros s0 a s1 Hs0 IH Hstep.
  eapply inv_calls_step; [by apply inv_spawn_reachable|done..].
Qed.

(** *** Outcomes written and calls made *)

Lemma tally_app {A : Type} (f : A → bool) (l1 l2 : list A) :
  tally f (l1 ++ l2) = tally f l1 + tally f l2.
Proof. induction l1 as [|x l1 IH]; cbn; [done|]. rewrite IH. lia. Qed.

Lemma tally_insert {A : Type} (f : A → bool) (l : list A) (i : nat) (x y : A) :
  l !! i = Some x →
  tally f (<[i:=y]> l) + (if f x then 1 else 0) = tally f l + (if f y then 1 else 0).
Proof.
  revert i. induction l as [|z l IH]; intros i Hi; [done|].
  destruct i as [|i]; simpl in *.
  - simplify_eq. destruct (f x), (f y); lia.
  - specialize (IH i Hi). revert IH. destruct (f z), (f x), (f y); lia.
Qed.

Lemma tally_le_length {A : Type} (f : A → bool) (l : list A) :
  (tally f l ≤ length l)%nat.
Proof. induction l as [|x l IH]; cbn; [done|]. destruct (f x); lia. Qed.

Lemma tally_ext_lookup {A : Type} (f g : A → bool) (l : list A) :
  (∀ i x, l !! i = Some x → f x = g x) → tally f l = tally g l.
Proof.
  induction l as [|x l IH]; intros Hfg; cbn; [done|].
  rewrite (Hfg 0 x eq_refl), IH; [done|]. intros i y Hy. by apply (Hfg (S i)).
Qed.

Lemma inv_sink_init : inv_sink (init inputs).
Proof. by unfold inv_sink. Qed.

Lemma inv_sink_step (s s' : State) (a : Action) :
  inv_sink s → step inputs s a = Some s' → inv_sink s'.
Proof.
  unfold inv_sink. intros (Hw & Hok & Hko) H0.
  step_cases H0; try done.
  all: repeat match goal with Hb : buf _ = _ |- _ => rewrite Hb in * end.
  all: rewrite ?length_app, ?tally_app; cbn in *.
  all: try match goal with
           | Ht : tasks _ !! ?i = Some ?t |- context [<[?i := ?y]> (tasks _)] =>
               pose proof (tally_insert wrote _ _ _ y Ht);
               pose proof (tally_insert call_succeeded _ _ _ y Ht);
               pose proof (tally_insert call_failed _ _ _ y Ht)
           end.
  all: unfold wrote, call_succeeded, call_failed in *; cbn in *.
  all: repeat match goal with Hpc : tpc _ = _ |- _ => rewrite Hpc in * end.
  all: lia.
Qed.

Lemma inv_sink_reachable (s : State) : reachable inputs s → inv_sink s.
Proof.
  apply reachable_invariant; [apply inv_sink_init|].
  intros ? ? ? _. apply inv_sink_step.
Qed.

(** Once every task has returned, the results channel has received one
    outcome per call that returned no error, and none for the others. *)
Lemma writes_match_successes (s : State) :
  reachable inputs s → forallb task_done (tasks s) = true →
  length (buf (responseChan s)) + length (stdout s)
  = tally (fun c => is_nil (call_err c)) (calls s)
  ∧ tally (fun c => is_nil (call_err c)) (calls s)
    + tally (fun c => negb (is_nil (call_err c))) (calls s)
    = length (tasks s).
Proof.
  intros Hs Hall. destruct (inv_sink_reachable s Hs) as (Hw & Hok & Hko).
  rewrite Hw, Hok, Hko. split.
  - apply tally_ext_lookup. intros i t Ht.
    destruct (task_done_lookup s i t Hall Ht) as [err Herr].
    unfold wrote, call_succeeded. by rewrite Herr.
  - clear Hw Hok Hko. induction (tasks s) as [|t ts IH]; [done|].
    cbn in *. apply andb_true_iff in Hall as [Ht Hts]. specialize (IH Hts).
    unfold task_done in Ht. unfold call_succeeded, call_failed in *.
    destruct (tpc t) as [| |[?|]|[?|]]; try done; lia.
Qed.

(** *** With a recipient, only the cancellation reaches [main] *)

Lemma inv_cancel_only_step (s s' : State) (a : Action) :
  Recipients inputs ≠ [] →
  inv_errors s → inv_cancel_only s → step inputs s a = Some s' → inv_cancel_only s'.
Proof.
  unfold inv_errors, inv_cancel_only.
  intros Hne (Hrc & Hmc & _) (Hret & Hbuf & Herr) H0.
  step_cases H0;
    repeat match goal with Hb : buf _ = _ |- _ => rewrite Hb in * end;
    rewrite ?Forall_app, ?Forall_cons, ?Forall_nil in *;
    try naive_solver.
  destruct (Recipients inputs); [done|]. cbn in *. lia.
Qed.

Lemma inv_cancel_only_reachable (s : State) :
  Recipients inputs ≠ [] → reachable inputs s → inv_cancel_only s.
Proof.
  intros Hne. apply reachable_invariant.
  - unfold inv_cancel_only; cbn. repeat split; try done; by constructor.
  - intros s0 a s1 Hs0 IH Hstep.
    eapply inv_cancel_only_step; [done|by apply inv_errors_reachable|done..].
Qed.

(** *** Tasks always make their call *)

Lemma task_makes_its_call (s : State) (i : nat) (t : Task) :
  status s = Running → tasks s !! i = Some t → tpc t = TSend →
  ∃ s', step inputs s (TaskG i) = Some s'
      ∧ calls s' = calls s ++
          [{| call_to := recipient t;
              call_ctxDone := gctxDone s;
              call_err := (SendTextMessage (client inputs) (gctxDone s)
                             (recipient t) (message inputs)).2 |}].
Proof.
  intros Hrun Ht Hpc. unfold step, step_task. rewrite Hrun, Ht, Hpc.
  destruct (SendTextMessage _ _ _ _) as [resp [e|]]; eexists; by split.
Qed.

(** *** A run that has come to rest has called every recipient *)

Lemma quiescent_called (s : State) (i : nat) (r : string) :
  reachable inputs s → status s = Running → quiescent inputs s →
  Recipients inputs !! i = Some r →
  ∃ c, c ∈ calls s ∧ call_to c = r.
Proof.
  intros Hs Hrun Hq Hr.
  destruct (inv_spawn_reachable s Hs) as (Hrcp & Hstart & Hpc).
  destruct (inv_calls_reachable s Hs) as [Hcalls _].
  assert (Hrun_started : runPc s ≠ RStart).
  { intros Hpc0. specialize (Hq (RunG OnRecv)). unfold step, step_Run in Hq.
    rewrite Hrun, Hpc0 in Hq. by destruct (decide _); specialize (Hq ltac:(done)). }
  assert (Htasks : length (tasks s) = length (Recipients inputs)).
  { pose proof (Hq Coord ltac:(done)) as Hc. unfold step, step_coord in Hc.
    rewrite Hrun in Hc. destruct (coordPc s); try done.
    - destruct Hpc as [_ [?|Hnil]]; [done|]. by rewrite Hnil in Hr.
    - by destruct (Recipients inputs !! i0).
    - by destruct Hpc.
    - by destruct Hpc.
    - by destruct Hpc. }
  destruct (lookup_lt_is_Some_2 (tasks s) i) as [t Ht].
  { rewrite Htasks. by eapply lookup_lt_Some. }
  pose proof (Hrcp i t Ht) as Hrt. rewrite Hr in Hrt. simplify_eq.
  apply (Hcalls i t Ht). intros Hsend.
  destruct (task_makes_its_call s i t Hrun Ht Hsend) as (s' & Hstep & _).
  by rewrite (Hq (TaskG i)) in Hstep.
Qed.

End Invariants.

(** ** Named runs *)

(** A state of a named run is quiescent when each of the finitely many
    program actions is refused. *)
Ltac quiescent_by_computation :=
  let a := fresh "a" in
  let Ha := fresh "Ha" in
  intros a Ha;
  destruct a as [sig|[]|[]| |[|[|[|i]]]];
  [ by destruct (Ha sig) | vm_compute; reflexivity .. ].

Ltac run_schedule := eexists; split; [vm_compute; reflexivity|].

(** C2 (the code departs from it): with recipients "111" and "222" and
    both sends refused, the run in which nothing interrupts ends with both
    errors on record but none of them aggregated: the coordinator hands
    over the first error only, [Run] drops it in its [select] and then
    waits in [range errChan] on a channel that is empty and never closed;
    [main] has received and reported nothing, and no goroutine can move.
    In no run at all does [Run] return, or [main] receive, anything but
    the configuration error or the cancellation error. *)
Theorem refused_sends_are_not_aggregated :
  (∃ s, @exec remote_refusing two_recipients (init two_recipients)
          (start_two ++ fail 0 ++ fail 1 ++ join ++ collect) = Some s
        ∧ map call_err (calls s)
          = [Some (ErrSend "status 500"); Some (ErrSend "status 500")]
        ∧ status s = Running
        ∧ runPc s = RRange []
        ∧ buf (runErrChan s) = [] ∧ closed (runErrChan s) = false
        ∧ buf (mainErrChan s) = []
        ∧ stderr s = []
        ∧ buf (responseChan s) = [] ∧ stdout s = []
        ∧ @quiescent remote_refusing two_recipients s)
  ∧ (∀ s, @reachable remote_refusing two_recipients s →
       (∀ err, runPc s = RReturn err → config_or_cancel err)
       ∧ Forall config_or_cancel (buf (mainErrChan s))
       ∧ ∀ e, ReportedError e ∈ stderr s → config_or_cancel (Some e)).
Proof.
  split.
  - run_schedule. repeat (split; [reflexivity|]). quiescent_by_computation.
  - intros s Hs. destruct (inv_errors_reachable _ s Hs) as (_ & _ & Hret & Hbuf & Herr & _).
    repeat split; [done..|].
    intros e He. rewrite Forall_forall in Herr. by eapply Herr.
Qed.

(** C3 (the code departs from it): the results channel has two closers,
    the coordinator (deferred in [run]) and [main] (after its [select]).
    With the one recipient "111" whose send succeeds: when the interrupt
    comes first, [main] closes the channel while the task is still to
    write, and the write panics; when the task and the coordinator finish
    first, the coordinator has closed the channel and the close of [main]
    panics. *)
Theorem results_channel_has_two_closers :
  (∃ s, @exec remote_delivering one_recipient (init one_recipient)
          (start_one ++ interrupt ++ [TaskG 0; TaskG 0]) = Some s
        ∧ coordPc s = CWait
        ∧ mainPc s = MDrain
        ∧ closed (responseChan s) = true
        ∧ status s = Panicked SendOnClosedChannel)
  ∧ (∃ s, @exec remote_delivering one_recipient (init one_recipient)
            (start_one ++ succeed 0 ++ join ++ interrupt) = Some s
          ∧ coordPc s = CDone
          ∧ mainPc s = MClose
          ∧ closed (responseChan s) = true
          ∧ status s = Panicked CloseOfClosedChannel).
Proof.
  split; run_schedule; repeat split.
Qed.

(** C4 (the code departs from it): recipients "111" and "222", both sends
    succeed with status 200 and ids "wamid.A" and "wamid.B".  Left alone
    the process does not end: both outcomes sit in the results channel,
    nothing is printed, [main] waits in its [select] and no goroutine can
    move.  When an interrupt then arrives, the close of [main] panics and
    nothing is printed either.  And in no run does the process exit with
    status 0. *)
Theorem two_successes_do_not_exit_zero :
  (∃ s, @exec remote_delivering two_recipients (init two_recipients)
          (start_two ++ succeed 0 ++ succeed 1 ++ join ++ collect) = Some s
        ∧ buf (responseChan s)
          = [ {| StatusCode := 200; Receiver := "111"; MessageID := "wamid.A" |};
              {| StatusCode := 200; Receiver := "222"; MessageID := "wamid.B" |} ]
        ∧ stdout s = []
        ∧ status s = Running
        ∧ mainPc s = MSelect
        ∧ @quiescent remote_delivering two_recipients s)
  ∧ (∃ s, @exec remote_delivering two_recipients (init two_recipients)
            (start_two ++ succeed 0 ++ succeed 1 ++ join ++ collect ++ interrupt)
          = Some s
          ∧ stdout s = []
          ∧ status s = Panicked CloseOfClosedChannel)
  ∧ (∀ s, @reachable remote_delivering two_recipients s → status s ≠ Exited 0).
Proof.
  split; [|split].
  - run_schedule. repeat (split; [reflexivity|]). quiescent_by_computation.
  - run_schedule. repeat split.
  - intros s Hs. by destruct (inv_errors_reachable _ s Hs) as (_ & _ & _ & _ & _ & Hex).
Qed.

(** C5 (the code departs from it): recipients "111" and "222", the first
    send is refused and the second succeeds.  The writes are as claimed:
    the one success is on the results channel and the failure wrote
    nothing.  The one error is not aggregated: the coordinator hands it
    over, [Run] drops it in its [select] and waits in [range errChan];
    [main] has received nothing.  In no run does [Run] return, or [main]
    receive, anything but the configuration or the cancellation error. *)
Theorem failure_is_not_aggregated :
  (∃ s, @exec remote_refusing_first two_recipients (init two_recipients)
          (start_two ++ fail 0 ++ succeed 1 ++ join ++ collect) = Some s
        ∧ map call_err (calls s) = [Some (ErrSend "status 500"); None]
        ∧ buf (responseChan s)
          = [ {| StatusCode := 200; Receiver := "222"; MessageID := "wamid.B" |} ]
        ∧ groupErr s = Some (ErrSend "status 500")
        ∧ status s = Running
        ∧ runPc s = RRange []
        ∧ buf (runErrChan s) = [] ∧ closed (runErrChan s) = false
        ∧ buf (mainErrChan s) = []
        ∧ stderr s = []
        ∧ @quiescent remote_refusing_first two_recipients s)
  ∧ (∀ s, @reachable remote_refusing_first two_recipients s →
       (∀ err, runPc s = RReturn err → config_or_cancel err)
       ∧ Forall config_or_cancel (buf (mainErrChan s))
       ∧ ∀ e, ReportedError e ∈ stderr s → config_or_cancel (Some e)).
Proof.
  split.
  - run_schedule. repeat (split; [reflexivity|]). quiescent_by_computation.
  - intros s Hs. destruct (inv_errors_reachable _ s Hs) as (_ & _ & Hret & Hbuf & Herr & _).
    repeat split; [done..|].
    intros e He. rewrite Forall_forall in Herr. by eapply Herr.
Qed.

(** C7 (the code departs from it): one recipient, the interrupt arrives
    before the task has made its call, and [main] cancels and closes the
    results channel.  When the send then fails with the cancellation, the
    task returns, the coordinator joins and its deferred close panics:
    the process dies of the panic with no cancellation error reported.
    When the send succeeds all the same, the write of its outcome panics
    and the outcome is never printed.  Only when [Run] and [main] win the
    race is the cancellation reported with exit status 1. *)
Theorem interrupt_races_with_the_close :
  (∃ s, @exec remote_cancellable one_recipient (init one_recipient)
          (start_one ++ interrupt ++ fail 0 ++ [Coord; Coord]) = Some s
        ∧ nctxDone s = true
        ∧ map call_err (calls s) = [Some ErrCanceled]
        ∧ reported (stderr s) = []
        ∧ status s = Panicked CloseOfClosedChannel)
  ∧ (∃ s, @exec remote_delivering one_recipient (init one_recipient)
            (start_one ++ interrupt ++ [TaskG 0; TaskG 0]) = Some s
          ∧ nctxDone s = true
          ∧ map call_err (calls s) = [None]
          ∧ stdout s = [] ∧ reported (stderr s) = []
          ∧ status s = Panicked SendOnClosedChannel)
  ∧ (∃ s, @exec remote_cancellable one_recipient (init one_recipient)
            (start_one ++ interrupt ++ report) = Some s
          ∧ reported (stderr s) = [ErrCanceled]
          ∧ status s = Exited 1).
Proof.
  split; [|split]; run_schedule; repeat split.
Qed.

(** ** The join and the shared scope *)

(** With a remote end that honours cancellation, what "222" gets depends
    on the schedule alone: called before "111" has failed, it is sent;
    called after, it fails with the cancellation. *)
Lemma sibling_outcome_depends_on_schedule :
  map call_err
    (calls (@run_of remote_cancellable_refusing_first two_recipients
              (start_two ++ [TaskG 1] ++ fail 0)))
  = [None; Some (ErrSend "status 500")]
  ∧ map call_err
      (calls (@run_of remote_cancellable_refusing_first two_recipients
                (start_two ++ fail 0 ++ [TaskG 1])))
    = [Some (ErrSend "status 500"); Some ErrCanceled].
Proof. split; vm_compute; reflexivity. Qed.




(** ** The recipient list [main] builds *)

Lemma main_inputs_nonempty (getenv : string → string) :
  Recipients (main_inputs getenv) ≠ [].
Proof. apply strings_Split_nonempty. Qed.

(** From [main] the guard of [Run] never fires, whatever the environment. *)
Lemma main_never_without_recipients `{Remote} (getenv : string → string) (s : State) :
  reachable (main_inputs getenv) s →
  ∀ err, runPc s = RReturn err → err ≠ Some ErrNoRecipients.
Proof.
  intros Hs err Hret.
  destruct (inv_cancel_only_reachable _ s (main_inputs_nonempty getenv) Hs) as (Hc & _).
  by rewrite (Hc err Hret).
Qed.

(** C9: when INPUT_RECIPIENTS is empty, the list [main] builds is the
    one-element list of the empty string.  Hence, in every state [main]
    can reach: [Run] has not returned the configuration error, the error
    is neither on its way to [main] nor reported; the only recipient ever
    called is the empty string; and when the program has come to rest
    while running, that call has been made.  The schedule in which [Run]
    starts the coordinator, the coordinator spawns the task and the task
    takes its first step makes exactly that call. *)
Theorem empty_INPUT_RECIPIENTS `{Remote} (getenv : string → string) :
  getenv "INPUT_RECIPIENTS" = "" →
  Recipients (main_inputs getenv) = [""]
  ∧ (∀ s, reachable (main_inputs getenv) s →
       (∀ err, runPc s = RReturn err → err ≠ Some ErrNoRecipients)
       ∧ Some ErrNoRecipients ∉ buf (mainErrChan s)
       ∧ ErrNoRecipients ∉ reported (stderr s)
       ∧ (∀ c, c ∈ calls s → call_to c = "")
       ∧ (status s = Running → quiescent (main_inputs getenv) s →
          ∃ c, c ∈ calls s ∧ call_to c = ""))
  ∧ (∃ s, exec (main_inputs getenv) (main getenv) (start_one ++ [TaskG 0]) = Some s
          ∧ map call_to (calls s) = [""]).
Proof.
  intros Henv.
  assert (Hrcp : Recipients (main_inputs getenv) = [""]) by (cbn; by rewrite Henv).
  split; [done|]. split.
  - intros s Hs.
    assert (Hne : Recipients (main_inputs getenv) ≠ []) by by rewrite Hrcp.
    destruct (inv_cancel_only_reachable _ s Hne Hs) as (Hret & Hbuf & Herr).
    split; [|split; [|split; [|split]]].
    + intros err Hpc. by rewrite (Hret err Hpc).
    + intros Hin. rewrite Forall_forall in Hbuf. by specialize (Hbuf _ Hin).
    + unfold reported. intros (l & Hl & Hsome)%list_elem_of_omap.
      rewrite Forall_forall in Herr. specialize (Herr l Hl).
      destruct l as [sig|e]; [done|]. simplify_eq. by specialize (Herr _ eq_refl).
    + intros c Hc. destruct (inv_calls_reachable _ s Hs) as [_ Hcalls].
      specialize (Hcalls c Hc). rewrite Hrcp in Hcalls.
      by apply list_elem_of_singleton in Hcalls.
    + intros Hrun Hq. apply (quiescent_called _ s 0 "" Hs Hrun Hq). by rewrite Hrcp.
  - rewrite exec_app. unfold main, start_one.
    assert (Hstart : ∃ s1, exec (main_inputs getenv) (init (main_inputs getenv))
                             [RunG OnRecv; Coord; Coord] = Some s1
                           ∧ status s1 = Running
                           ∧ tasks s1 = [{| recipient := ""; tpc := TSend |}]
                           ∧ calls s1 = []).
    { unfold exec, step, step_Run, step_coord, init. cbn. rewrite Henv. cbn.
      eexists. split; [reflexivity|]. by cbn. }
    destruct Hstart as (s1 & -> & Hrun & Htasks & Hcalls). cbn.
    destruct (task_makes_its_call (main_inputs getenv) s1 0
                {| recipient := ""; tpc := TSend |} Hrun) as (s2 & -> & Hc2);
      [by rewrite Htasks|done|].
    exists s2. split; [done|]. by rewrite Hc2, Hcalls.
Qed.

Lemma empty_INPUT_RECIPIENTS_witness :
  (fun _ : string => "") "INPUT_RECIPIENTS" = ""
  ∧ Recipients (main_inputs (fun _ => "")) = [""]
  ∧ ∃ s, @exec remote_delivering (main_inputs (fun _ => "")) (main (fun _ => ""))
           (start_one ++ [TaskG 0]) = Some s
         ∧ map call_to (calls s) = [""].
Proof.
  split; [reflexivity|].
  destruct (@empty_INPUT_RECIPIENTS remote_delivering (fun _ => "") eq_refl)
    as (Hlist & _ & Hcall).
  split; [exact Hlist|exact Hcall].
Defined.

(** ** An empty recipient list *)

Section Empty.

Context `{Remote} (inputs : Inputs) (Hempty : Recipients inputs = []).

Lemma reported_signal (lines : list StderrLine) (sig : option Signal) :
  reported (lines ++ [ReceivedSignal sig]) = reported lines.
Proof. unfold reported. rewrite omap_app. cbn. apply app_nil_r. Qed.

Lemma reported_error (lines : list StderrLine) (e : error) :
  reported (lines ++ [ReportedError e]) = reported lines ++ [e].
Proof. unfold reported. by rewrite omap_app. Qed.

Lemma inv_empty_init : inv_empty (init inputs).
Proof. unfold inv_empty; cbn. by repeat split. Qed.

Lemma inv_empty_step (s s' : State) (a : Action) :
  inv_empty s → step inputs s a = Some s' → inv_empty s'.
Proof using Hempty.
  unfold inv_empty.
  intros (Ht & Hc & Hcalls & Hsink & Hout & Hmc & Hcap & Hsc & Hscap & Hr & Hm) H0.
  assert (Hlen : length (Recipients inputs) = 0) by by rewrite Hempty.
  step_action H0.
  5: { unfold step_task in H0. by rewrite Ht in H0. }
  4: { unfold step_coord in H0. by rewrite Hc in H0. }
  all: step_unfold H0.
  all: rewrite ?reported_signal, ?reported_error.
  all: repeat match goal with Hx : _ ∧ _ |- _ => destruct Hx end.
  all: try contradiction; try congruence; try lia.
  all: repeat match goal with
              | Hx : buf _ = _ |- _ => rewrite Hx in *
              | Hx : reported _ = _ |- _ => rewrite Hx in *
              end.
  all: simplify_eq; cbn in *.
  all: try (repeat split; try done; try congruence; try lia).
Qed.

Lemma inv_empty_reachable (s : State) : reachable inputs s → inv_empty s.
Proof using Hempty.
  apply reachable_invariant; [apply inv_empty_init|].
  intros ? ? ? _. apply inv_empty_step.
Qed.

(** The process is running and has reported nothing, or it has exited
    with status 1 and has reported the configuration error once. *)
Lemma inv_empty_status (s : State) :
  inv_empty s →
  status s = Running ∧ reported (stderr s) = []
  ∨ status s = Exited 1 ∧ reported (stderr s) = [ErrNoRecipients].
Proof.
  intros (_ & _ & _ & _ & _ & _ & _ & _ & _ & _ & Hm).
  destruct (mainPc s); destruct Hm as (? & ?); try destruct_and?; auto.
Qed.

(** Every running state has a step that brings the exit nearer. *)
Lemma empty_progress (s : State) :
  inv_empty s → status s = Running →
  ∃ a s', step inputs s a = Some s' ∧ steps_to_exit s' < steps_to_exit s.
Proof using Hempty.
  intros (Ht & Hc & Hcalls & Hsink & Hout & Hmc & Hcap & Hsc & Hscap & Hr & Hm) Hrun.
  assert (Hlen : length (Recipients inputs) = 0) by by rewrite Hempty.
  unfold steps_to_exit.
  destruct (runPc s) as [| |errs|err|] eqn:Hrpc; try done.
  - exists (RunG OnRecv). eexists. split.
    + unfold step, step_Run. rewrite Hrun, Hrpc. by case_decide.
    + cbn. rewrite ?Hrpc. cbn. lia.
  - destruct Hr as (-> & Hb & _). exists (RunG OnRecv). eexists. split.
    + unfold step, step_Run, chan_send. rewrite Hrun, Hrpc, Hmc, Hb, Hcap. cbn.
      by case_decide; [|lia].
    + cbn. rewrite ?Hrpc. cbn. lia.
  - destruct (mainPc s) eqn:Hmpc.
    + destruct Hm as (Hrc & _ & _). destruct (buf (signalChan s)) as [|sig sigs] eqn:Hsig.
      * exists (Deliver SIGINT). eexists. split.
        -- unfold step, step_deliver, chan_send. rewrite Hrun, Hsc, Hsig, Hscap. cbn.
           by case_decide; [|lia].
        -- cbn. rewrite ?Hrpc, ?Hmpc. cbn. lia.
      * exists (Main OnRecv). eexists. split.
        -- unfold step, step_main, chan_recv. by rewrite Hrun, Hmpc, Hsig.
        -- cbn. rewrite ?Hrpc, ?Hmpc. cbn. lia.
    + exists (Main OnRecv). eexists. split.
      * unfold step, step_main. by rewrite Hrun, Hmpc.
      * cbn. rewrite ?Hrpc, ?Hmpc. cbn. lia.
    + destruct Hm as (Hrc & _ & _). exists (Main OnRecv). eexists. split.
      * unfold step, step_main, chan_close. by rewrite Hrun, Hmpc, Hrc.
      * cbn. rewrite ?Hrpc, ?Hmpc. cbn. lia.
    + destruct Hm as (Hrc & _ & _). exists (Main OnRecv). eexists. split.
      * unfold step, step_main, chan_recv. by rewrite Hrun, Hmpc, Hsink, Hrc.
      * cbn. rewrite ?Hrpc, ?Hmpc. cbn. lia.
    + exists (Main OnRecv). eexists. split.
      * unfold step, step_main, chan_recv. by rewrite Hrun, Hmpc, Hr.
      * cbn. rewrite ?Hrpc, ?Hmpc. cbn. lia.
    + destruct Hm as (Hex & _). congruence.
Qed.

(** From every reachable state some schedule leads to exit status 1. *)
Lemma empty_exits (s : State) :
  inv_empty s →
  ∃ schedule s', exec inputs s schedule = Some s'
    ∧ status s' = Exited 1 ∧ reported (stderr s') = [ErrNoRecipients].
Proof using Hempty.
  remember (steps_to_exit s) as n eqn:Hn. revert s Hn.
  induction n as [n IH] using lt_wf_ind. intros s -> Hinv.
  destruct (inv_empty_status s Hinv) as [[Hrun _]|[Hex Hrep]].
  - destruct (empty_progress s Hinv Hrun) as (a & s1 & Hstep & Hlt).
    destruct (IH _ Hlt s1 eq_refl) as (schedule & s' & Hexec & Hs');
      [by eapply inv_empty_step|].
    exists (a :: schedule), s'. cbn. by rewrite Hstep.
  - by exists [], s.
Qed.

End Empty.



(** In this draft [main] leaves its [select] on an interrupt only: with no
    recipients and no signal, [Run] has handed the configuration error to
    [errChan] and nothing moves until a signal arrives; the interrupt then
    leads to the report and to exit status 1. *)
Lemma no_recipients_reported_after_interrupt :
  (∃ s, @exec remote_delivering (inputs_for []) (init (inputs_for []))
          [RunG OnRecv; RunG OnRecv] = Some s
        ∧ status s = Running
        ∧ mainPc s = MSelect
        ∧ buf (mainErrChan s) = [Some ErrNoRecipients]
        ∧ @quiescent remote_delivering (inputs_for []) s)
  ∧ (∃ s, @exec remote_delivering (inputs_for []) (init (inputs_for []))
            ([RunG OnRecv; RunG OnRecv] ++ interrupt ++ [Main OnRecv; Main OnRecv])
          = Some s
          ∧ status s = Exited 1
          ∧ stderr s = [ReceivedSignal (Some SIGINT); ReportedError ErrNoRecipients]).
Proof.
  split.
  - run_schedule. repeat (split; [reflexivity|]). quiescent_by_computation.
  - run_schedule. repeat split.
Qed.
